(** * torchx/util/entrypoints.py: deferred entry-point resolution

    A shallow embedding of [load], [_defer_load_ep] and [load_group]
    together with the pieces of the Python runtime they lean on
    ([str.endswith], [str.replace], [dict] updates, the
    [importlib_metadata] entry-point container), followed by the
    properties of the resolution layer. *)

From Stdlib Require Import Ascii.
From stdpp Require Import gmap strings list fin_maps.

Local Open Scope string_scope.

(** ** Python [str] operations used by the module *)

Module PyStr.

(** [s[n:]] *)
Fixpoint drop (n : nat) (s : string) : string :=
  match n, s with
  | O, _ => s
  | S _, EmptyString => EmptyString
  | S k, String _ s' => drop k s'
  end.

(** [s.startswith(p)] *)
Fixpoint startswith (s p : string) : bool :=
  match p, s with
  | EmptyString, _ => true
  | String _ _, EmptyString => false
  | String a p', String b s' =>
      if Ascii.eqb a b then startswith s' p' else false
  end.

(** [s.endswith(suffix)]: the tail of [s] of the suffix's length is
    compared with the suffix; a suffix longer than [s] never matches. *)
Definition endswith (s suffix : string) : bool :=
  if Nat.leb (String.length suffix) (String.length s)
  then String.eqb (drop (String.length s - String.length suffix) s) suffix
  else false.

(** [s.replace(old, new)] for an empty [old]: [new] goes before every
    character and at the end. *)
Fixpoint interleave (new s : string) : string :=
  match s with
  | EmptyString => new
  | String c s' => new +:+ String c (interleave new s')
  end.

(** Left-to-right scan of [s.replace(old, new)] for a non-empty [old]:
    [skip] counts the characters of the occurrence just matched that
    are still to be passed over, so occurrences never overlap. *)
Fixpoint replace_scan (old new : string) (skip : nat) (s : string) : string :=
  match s with
  | EmptyString => EmptyString
  | String c s' =>
      match skip with
      | S k => replace_scan old new k s'
      | O =>
          if startswith s old
          then new +:+ replace_scan old new (String.length old - 1) s'
          else String c (replace_scan old new 0 s')
      end
  end.

(** [s.replace(old, new)]: every non-overlapping occurrence of [old],
    found from the left, becomes [new]. *)
Definition replace (s old new : string) : string :=
  match old with
  | EmptyString => interleave new s
  | String _ _ => replace_scan old new 0 s
  end.

(** [sub in s] *)
Fixpoint contains (s sub : string) : bool :=
  startswith s sub ||
  match s with
  | EmptyString => false
  | String _ s' => contains s' sub
  end.

End PyStr.

(** ** [importlib_metadata.EntryPoint] *)

Module EntryPoint.
(** One record of the metadata store: [name = value] under the
    section header [[group]]. *)
Record t : Type := mk { name : string; value : string; group : string }.

Global Instance eq_dec : EqDecision t.
Proof. solve_decision. Defined.
End EntryPoint.

(** ** The host: target loader, callables, exceptions, and what is observed *)

Section Host.
(** Python objects handed around opaquely (loaded modules, functions,
    caller defaults, return values), exceptions raised by the host,
    and the interpreter state that importing and calling may change. *)
Context {Val Exc World : Type}.

(** [ep.attr]: the attribute part that [importlib_metadata] parses out
    of [ep.value]; [None] when the reference is a bare module. *)
Variable attr : EntryPoint.t → option string.
(** [ep.load()]: import the module and walk the attribute path. *)
Variable ep_load : EntryPoint.t → World → World * (Exc + Val).
(** [f( *args, **kwargs)] for a loaded object [f]. *)
Variable py_call : Val → list Val → list (string * Val) → World → World * (Exc + Val).

Inductive exn : Type :=
| KeyError (key : string)          (* raised by [EntryPoints.__getitem__] *)
| HostError (e : Exc).             (* raised by the loader or by a target *)

Inductive outcome (A : Type) : Type :=
| Return (a : A)
| Raise (e : exn).
Global Arguments Return {A} a.
Global Arguments Raise {A} e.

(** What the module asks of the host, in order. *)
Inductive event : Type :=
| Loaded (ep : EntryPoint.t)
| Called (f : Val) (args : list Val) (kwargs : list (string * Val)).

Record state : Type := mkState { world : World; trace : list event }.

(** Computations: state passing with exceptions. *)
Definition M (A : Type) : Type := state → state * outcome A.

Definition ret {A} (a : A) : M A := λ s, (s, Return a).
Definition raise {A} (e : exn) : M A := λ s, (s, Raise e).
Definition bind {A B} (c : M A) (k : A → M B) : M B :=
  λ s, match c s with
       | (s', Return a) => k a s'
       | (s', Raise e) => (s', Raise e)
       end.

Local Notation "'let*' x ':=' c 'in' k" := (bind c (λ x, k))
  (at level 10, x name, c at level 100, k at level 200).

Definition lift_host (ev : event) (op : World → World * (Exc + Val)) : M Val :=
  λ s, let '(w, r) := op (world s) in
       (mkState w (trace s ++ [ev])%list,
        match r with inl e => Raise (HostError e) | inr v => Return v end).

(** [ep.load()] and [f( *args, **kwargs)] as computations. *)
Definition do_load (ep : EntryPoint.t) : M Val :=
  lift_host (Loaded ep) (ep_load ep).
Definition do_call (f : Val) (args : list Val) (kwargs : list (string * Val)) : M Val :=
  lift_host (Called f args kwargs) (py_call f args kwargs).

(** *** The [EntryPoints] container of [importlib_metadata] *)

(** [eps.select(group=group)] *)
Definition select (eps : list EntryPoint.t) (group : string) : list EntryPoint.t :=
  filter (λ ep, EntryPoint.group ep = group) eps.

(** [eps.names] *)
Definition names (eps : list EntryPoint.t) : gset string :=
  list_to_set (EntryPoint.name <$> eps).

(** [eps[name]], as [importlib_metadata] defines it: the first entry of
    that name, else [KeyError(name)]. *)
Definition getitem (eps : list EntryPoint.t) (name : string) : M EntryPoint.t :=
  match filter (λ ep, EntryPoint.name ep = name) eps with
  | ep :: _ => ret ep
  | [] => raise (KeyError name)
  end.

(** *** [load] *)

(** [default] is [None] when the caller passed no default: Python's
    [None] is the missing default, which is what [default is not None]
    tests. *)
Definition load (entry_points : list EntryPoint.t)
    (group name : string) (default : option Val) : M Val :=
  let entrypoints := select entry_points group in
  match (if bool_decide (name ∉ names entrypoints) then default else None) with
  | Some d => ret d
  | None =>
      let* ep := getitem entrypoints name in
      do_load ep
  end.

(** *** [_defer_load_ep] *)

(** The values of a resolved group: objects the caller passed in as
    defaults, and the closures made by [_defer_load_ep]. *)
Inductive obj : Type :=
| Given (v : Val)
| Closure (f : list Val → list (string * Val) → M Val).

(** The inner function [run] with [ep] captured. *)
Definition run (ep : EntryPoint.t) (args : list Val) (kwargs : list (string * Val)) : M Val :=
  match attr ep with
  | None => do_load ep
  | Some _ =>
      let* f := do_load ep in
      do_call f args kwargs
  end.

Definition _defer_load_ep (ep : EntryPoint.t) : obj := Closure (run ep).

(** [o( *args, **kwargs)] for a value of a resolved group. *)
Definition invoke (o : obj) (args : list Val) (kwargs : list (string * Val)) : M Val :=
  match o with
  | Given v => do_call v args kwargs
  | Closure f => f args kwargs
  end.

(** *** [load_group] *)

(** The first loop: entries whose group is [group] go to
    [entrypoints_override], the others whose group ends with [group]
    to [entrypoints_prefixed]; both keep the store's order. *)
Definition scan (entry_points : list EntryPoint.t) (group : string)
    : list EntryPoint.t * list EntryPoint.t :=
  foldl (λ '(entrypoints_prefixed, entrypoints_override) ep,
           if decide (EntryPoint.group ep = group)
           then (entrypoints_prefixed, (entrypoints_override ++ [ep])%list)
           else if PyStr.endswith (EntryPoint.group ep) group
           then ((entrypoints_prefixed ++ [ep])%list, entrypoints_override)
           else (entrypoints_prefixed, entrypoints_override))
        ([], []) entry_points.

(** [a or b] on lists. *)
Definition list_or {A} (a b : list A) : list A :=
  match a with [] => b | _ :: _ => a end.

(** Truth value of [default]: neither [None] nor an empty dict. *)
Definition truthy (default : option (gmap string Val)) : bool :=
  match default with
  | None => false
  | Some d => negb (bool_decide (d = ∅))
  end.

(** [eps.update(default)] *)
Definition dict_update (eps : gmap string obj) (default : option (gmap string Val))
    : gmap string obj :=
  match default with
  | None => eps
  | Some d => (Given <$> d) ∪ eps
  end.

(** [default] as handed back to the caller: [None], or the caller's
    own dict with its values seen as [obj]. *)
Definition as_result (default : option (gmap string Val)) : option (gmap string obj) :=
  match default with
  | None => None
  | Some d => Some (Given <$> d)
  end.

(** The key under which [ep] is stored. *)
Definition effective_name (group : string) (ep : EntryPoint.t) : string :=
  let prefix := PyStr.replace (EntryPoint.group ep) group EmptyString in
  prefix +:+ EntryPoint.name ep.

(** The second loop. *)
Definition store_all (group : string) (eps : gmap string obj)
    (entrypoints : list EntryPoint.t) : gmap string obj :=
  foldl (λ eps ep, <[effective_name group ep := _defer_load_ep ep]> eps)
        eps entrypoints.

Definition load_group (entry_points : list EntryPoint.t) (group : string)
    (default : option (gmap string Val)) (skip_defaults : bool)
    : M (option (gmap string obj)) :=
  let '(entrypoints_prefixed, entrypoints_override) := scan entry_points group in
  let entrypoints := list_or entrypoints_override entrypoints_prefixed in
  if Nat.eqb (length entrypoints) 0 then
    if skip_defaults then ret None
    else ret (as_result default)
  else
    let eps : gmap string obj := ∅ in
    let eps := if negb skip_defaults && truthy default
               then dict_update eps default else eps in
    let eps := store_all group eps entrypoints in
    ret (Some eps).

End Host.

(** ** Literal removal, as the specification words it *)

(** [removed g s r]: [r] is [s] with the literal substring [g] removed
    wherever it occurs, reading [s] from the left: an occurrence at the
    head is dropped whole and reading resumes after it; a character that
    starts no occurrence is kept.  Nothing here looks at where in [s]
    the occurrence lies, so an occurrence in the middle goes like one at
    the end. *)
Inductive removed (g : string) : string → string → Prop :=
| removed_nil :
    removed g EmptyString EmptyString
| removed_occurrence t r :
    removed g t r → removed g (g +:+ t) r
| removed_keep c t r :
    PyStr.startswith (String c t) g = false →
    removed g t r → removed g (String c t) (String c r).

(** ** Derived notions used to state the properties *)

Section Notions.
Context {Val Exc World : Type}.

(** Exact and suffix matches of the requested group. *)
Definition exact (group : string) (ep : EntryPoint.t) : Prop :=
  EntryPoint.group ep = group.
Definition suffixed (group : string) (ep : EntryPoint.t) : Prop :=
  EntryPoint.group ep ≠ group ∧ PyStr.endswith (EntryPoint.group ep) group = true.

Global Instance exact_dec group ep : Decision (exact group ep).
Proof. unfold exact. apply _. Defined.
Global Instance suffixed_dec group ep : Decision (suffixed group ep).
Proof. unfold suffixed. apply _. Defined.

(** The entries [load_group] goes on with: [entrypoints_override or
    entrypoints_prefixed]. *)
Definition effective_entries (entry_points : list EntryPoint.t) (group : string)
    : list EntryPoint.t :=
  let '(entrypoints_prefixed, entrypoints_override) := scan entry_points group in
  list_or entrypoints_override entrypoints_prefixed.

(** The dict [eps] before the second loop. *)
Definition seed (default : option (gmap string Val)) (skip_defaults : bool)
    : gmap string (@obj Val Exc World) :=
  if negb skip_defaults && truthy default then dict_update ∅ default else ∅.

(** Among [entrypoints], the last entry stored under key [k]. *)
Definition winner (group k : string) (entrypoints : list EntryPoint.t)
    : option EntryPoint.t :=
  last (filter (λ ep, effective_name group ep = k) entrypoints).

(** Number of loader calls recorded in a trace. *)
Fixpoint loads (tr : list (@event Val)) : nat :=
  match tr with
  | [] => 0
  | Loaded _ :: tr' => S (loads tr')
  | Called _ _ _ :: tr' => loads tr'
  end.

(** The text an exception carries mentions [x]. *)
Definition error_names (e : @exn Exc) (x : string) : bool :=
  match e with
  | KeyError key => PyStr.contains key x
  | HostError _ => false
  end.
End Notions.

(** ** A small concrete host, for examples *)

Module Toy.
(** Objects and exceptions are named by strings; the world counts
    imports. *)
Definition Val : Type := string.
Definition Exc : Type := string.
Definition World : Type := nat.

(** The text after the first colon of [value], if there is one. *)
Fixpoint after_colon (v : string) : option string :=
  match v with
  | EmptyString => None
  | String c v' => if Ascii.eqb c ":"%char then Some v' else after_colon v'
  end.

Definition attr (ep : EntryPoint.t) : option string :=
  after_colon (EntryPoint.value ep).

Definition ep_load (ep : EntryPoint.t) (w : World) : World * (Exc + Val) :=
  match EntryPoint.value ep with
  | EmptyString => (w, inl "ModuleNotFoundError")
  | v => (S w, inr v)
  end.

Definition py_call (f : Val) (args : list Val) (kwargs : list (string * Val))
    (w : World) : World * (Exc + Val) :=
  (w, inr (f +:+ "(" +:+ String.concat "," (args ++ (snd <$> kwargs))%list +:+ ")")).

Definition s0 : @state Val World := mkState 0 [].

Definition bar : EntryPoint.t := EntryPoint.mk "bar" "pkg.mod:fn" "foo".
Definition baz : EntryPoint.t := EntryPoint.mk "baz" "pkg.mod2" "foo".
Definition ns_bar : EntryPoint.t := EntryPoint.mk "bar" "other.mod:fn" "ns.foo".
Definition twice_bar : EntryPoint.t := EntryPoint.mk "bar" "other.mod:fn" "foofoo.foo".
Definition anon : EntryPoint.t := EntryPoint.mk "a" "pkg.anon" EmptyString.

(** Stores: one group; the same with a namespaced provider; the
    namespaced provider alone; one with an entry of the empty group. *)
Definition foo_store : list EntryPoint.t := [bar; baz].
Definition mixed_store : list EntryPoint.t := [ns_bar; bar; baz].
Definition ns_store : list EntryPoint.t := [ns_bar].
Definition anon_store : list EntryPoint.t := [anon; bar].

(** A second provider of [bar] in group [foo], and a loader that always
    fails. *)
Definition bar2 : EntryPoint.t := EntryPoint.mk "bar" "other.mod:fn2" "foo".
Definition dup_store : list EntryPoint.t := [bar; bar2].
Definition failing_load (ep : EntryPoint.t) (w : World) : World * (Exc + Val) :=
  (w, inl "ImportError").

Definition load_group := load_group attr ep_load py_call.
Definition load := load ep_load.
Definition handle := _defer_load_ep attr ep_load py_call.
Definition call := invoke py_call.
End Toy.

(** * Properties *)

(** ** Strings *)

Section StringFacts.
Implicit Types s p t g old new : string.

Lemma app_cons a s t : String a s +:+ t = String a (s +:+ t).
Proof. reflexivity. Qed.

Lemma app_empty_r s : s +:+ EmptyString = s.
Proof. induction s as [|a s IH]; [done|]. by rewrite app_cons, IH. Qed.

Lemma length_app s t :
  String.length (s +:+ t) = String.length s + String.length t.
Proof. induction s as [|a s IH]; [done|]. rewrite app_cons. simpl. by rewrite IH. Qed.

Lemma drop_app p t : PyStr.drop (String.length p) (p +:+ t) = t.
Proof. induction p as [|a p IH]; [by destruct t|]. by rewrite app_cons. Qed.

Lemma drop_all s : PyStr.drop (String.length s) s = EmptyString.
Proof. induction s; simpl; auto. Qed.

Lemma drop_split s n :
  (n ≤ String.length s)%nat →
  ∃ p, s = p +:+ PyStr.drop n s ∧ String.length p = n.
Proof.
  revert s. induction n as [|n IH]; intros s Hn.
  - exists EmptyString. by destruct s.
  - destruct s as [|a s]; simpl in *; [lia|].
    destruct (IH s) as (p & Hp & Hlen); [lia|].
    exists (String a p). rewrite app_cons. simpl. by rewrite <-Hp, Hlen.
Qed.

Lemma startswith_app p t : PyStr.startswith (p +:+ t) p = true.
Proof.
  induction p as [|a p IH]; [by destruct t|].
  rewrite app_cons. simpl. by rewrite Ascii.eqb_refl.
Qed.

Lemma startswith_inv s p :
  PyStr.startswith s p = true → ∃ t, s = p +:+ t.
Proof.
  revert s. induction p as [|a p IH]; intros s H.
  - by exists s.
  - destruct s as [|b s]; simpl in H; [done|].
    destruct (Ascii.eqb_spec a b) as [->|]; [|done].
    destruct (IH _ H) as [t ->]. by exists t.
Qed.

(** [endswith] is the suffix relation. *)
Lemma endswith_spec s g :
  PyStr.endswith s g = true ↔ ∃ p, s = p +:+ g.
Proof.
  unfold PyStr.endswith. split.
  - destruct (Nat.leb_spec (String.length g) (String.length s)) as [Hle|]; [|done].
    intros Heq%String.eqb_eq.
    destruct (drop_split s (String.length s - String.length g)) as (p & Hp & _); [lia|].
    exists p. by rewrite Heq in Hp.
  - intros [p ->]. rewrite length_app.
    destruct (Nat.leb_spec (String.length g) (String.length p + String.length g));
      [|lia].
    replace (String.length p + String.length g - String.length g)
      with (String.length p) by lia.
    rewrite drop_app. apply String.eqb_refl.
Qed.

Lemma endswith_empty s : PyStr.endswith s EmptyString = true.
Proof. apply endswith_spec. exists s. by rewrite app_empty_r. Qed.

Lemma endswith_refl s : PyStr.endswith s s = true.
Proof. apply endswith_spec. by exists EmptyString. Qed.

Lemma interleave_empty s : PyStr.interleave EmptyString s = s.
Proof. induction s as [|a s IH]; [done|]. simpl. by rewrite IH. Qed.

(** Passing over [k] characters is dropping them. *)
Lemma replace_scan_skip old new k s :
  PyStr.replace_scan old new k s = PyStr.replace_scan old new 0 (PyStr.drop k s).
Proof.
  revert s. induction k as [|k IH]; intros s; [done|].
  destruct s as [|a s]; [done|]. simpl. apply IH.
Qed.

(** An occurrence at the head is replaced and the scan resumes right
    after it. *)
Lemma replace_scan_head a old new t :
  PyStr.replace_scan (String a old) new 0 (String a old +:+ t)
  = new +:+ PyStr.replace_scan (String a old) new 0 t.
Proof.
  rewrite app_cons. cbn [PyStr.replace_scan].
  rewrite <-app_cons, startswith_app.
  rewrite replace_scan_skip. f_equal. f_equal.
  simpl. rewrite Nat.sub_0_r. apply drop_app.
Qed.

(** No occurrence at the head: the first character is kept. *)
Lemma replace_scan_keep old new a s :
  PyStr.startswith (String a s) old = false →
  PyStr.replace_scan old new 0 (String a s)
  = String a (PyStr.replace_scan old new 0 s).
Proof. intros H. cbn [PyStr.replace_scan]. by rewrite H. Qed.

(** Removing [g] from [g] leaves nothing, whatever [g] is. *)
Lemma replace_self g : PyStr.replace g g EmptyString = EmptyString.
Proof.
  destruct g as [|a g]; [done|]. unfold PyStr.replace.
  rewrite <-(app_empty_r (String a g)) at 2.
  by rewrite replace_scan_head.
Qed.

Lemma replace_empty_pattern s : PyStr.replace s EmptyString EmptyString = s.
Proof. apply interleave_empty. Qed.

(** When [g] occurs in [p +:+ g] at the end only, removing it is
    stripping the trailing segment. *)
Lemma replace_trailing p g :
  g ≠ EmptyString →
  (∀ i, (i < String.length p)%nat → PyStr.startswith (PyStr.drop i (p +:+ g)) g = false) →
  PyStr.replace (p +:+ g) g EmptyString = p.
Proof.
  intros Hg. destruct g as [|a g]; [done|]. unfold PyStr.replace.
  induction p as [|b p IH]; intros Hocc.
  - change (EmptyString +:+ String a g) with (String a g).
    rewrite <-(app_empty_r (String a g)) at 2.
    by rewrite replace_scan_head.
  - rewrite app_cons, replace_scan_keep.
    + f_equal. apply IH. intros i Hi. apply (Hocc (S i)). simpl. lia.
    + apply (Hocc 0). simpl. lia.
Qed.

Lemma contains_refl s : PyStr.contains s s = true.
Proof.
  destruct s as [|a s]; [done|]. cbn [PyStr.contains].
  rewrite <-(app_empty_r (String a s)) at 1. by rewrite startswith_app.
Qed.
Lemma app_cons_inv a g t b s :
  String a g +:+ t = String b s → a = b ∧ g +:+ t = s.
Proof. rewrite app_cons. by intros [= -> ->]. Qed.

(** [str.replace] with the empty string as replacement removes the
    pattern in the sense of [removed]. *)
Lemma replace_removed g s :
  g ≠ EmptyString → removed g s (PyStr.replace s g EmptyString).
Proof.
  intros Hg. destruct g as [|a g]; [done|]. unfold PyStr.replace.
  remember (String.length s) as len eqn:Hlen.
  revert s Hlen. induction len as [len IH] using lt_wf_ind. intros s Hlen.
  destruct s as [|c t]; [constructor|].
  destruct (PyStr.startswith (String c t) (String a g)) eqn:Hst.
  - destruct (startswith_inv _ _ Hst) as [t' Ht']. rewrite Ht'.
    rewrite replace_scan_head.
    change (EmptyString +:+ ?x) with x.
    apply removed_occurrence.
    apply (IH (String.length t')); [|done].
    rewrite Hlen, Ht', length_app. simpl. lia.
  - rewrite replace_scan_keep by done.
    apply removed_keep; [done|].
    apply (IH (String.length t)); [|done]. rewrite Hlen. simpl. lia.
Qed.

(** For a non-empty pattern the removal has one result only. *)
Lemma removed_functional g s r1 r2 :
  g ≠ EmptyString → removed g s r1 → removed g s r2 → r1 = r2.
Proof.
  intros Hg H1. revert r2.
  induction H1 as [|t r1 H1 IH|c t r1 Hno H1 IH]; intros r2 H2.
  - inversion H2 as [|t' r' H' Heq|]; [done|].
    destruct g as [|a g]; [done|]. by rewrite app_cons in Heq.
  - remember (g +:+ t) as s eqn:Hs.
    destruct H2 as [|t' r2 H2|c t' r2 Hno H2].
    + destruct g as [|a g]; [done|]. by rewrite app_cons in Hs.
    + apply (inj (String.app g)) in Hs as ->. by apply IH.
    + by rewrite Hs, startswith_app in Hno.
  - remember (String c t) as s eqn:Hs.
    destruct H2 as [|t' r2 H2|c' t' r2 Hno' H2].
    + done.
    + by rewrite startswith_app in Hno.
    + injection Hs as -> ->. f_equal. by apply IH.
Qed.

End StringFacts.

(** ** The scan and the stored keys *)

Section HostFacts.
Context {Val Exc World : Type}.
Variable attr : EntryPoint.t → option string.
Variable ep_load : EntryPoint.t → World → World * (Exc + Val).
Variable py_call : Val → list Val → list (string * Val) → World → World * (Exc + Val).

Local Abbreviation _defer_load_ep := (_defer_load_ep attr ep_load py_call).
Local Abbreviation store_all := (store_all attr ep_load py_call).
Local Abbreviation load_group := (load_group attr ep_load py_call).
Local Abbreviation run := (run attr ep_load py_call).
Local Abbreviation invoke := (invoke py_call).
Local Abbreviation load := (load ep_load).
Local Abbreviation obj := (@obj Val Exc World).
Local Abbreviation state := (@state Val World).

Implicit Types (st : list EntryPoint.t) (ep : EntryPoint.t) (g k : string).
Implicit Types (d : option (gmap string Val)) (s : state) (m : gmap string obj).

Lemma scan_acc st g (a b : list EntryPoint.t) :
  foldl (λ '(entrypoints_prefixed, entrypoints_override) ep,
           if decide (EntryPoint.group ep = g)
           then (entrypoints_prefixed, (entrypoints_override ++ [ep])%list)
           else if PyStr.endswith (EntryPoint.group ep) g
           then ((entrypoints_prefixed ++ [ep])%list, entrypoints_override)
           else (entrypoints_prefixed, entrypoints_override))
        (a, b) st
  = ((a ++ filter (suffixed g) st)%list, (b ++ filter (exact g) st)%list).
Proof.
  revert a b. induction st as [|ep st IH]; intros a b; simpl.
  - by rewrite !app_nil_r.
  - rewrite !filter_cons.
    destruct (decide (EntryPoint.group ep = g)) as [Heq|Hne].
    + rewrite IH, (decide_True _ _ (P := exact g ep)) by done.
      rewrite decide_False by (unfold suffixed; tauto).
      by rewrite <-app_assoc.
    + rewrite (decide_False _ _ (P := exact g ep)) by done.
      destruct (PyStr.endswith (EntryPoint.group ep) g) eqn:Hends.
      * rewrite IH, decide_True by done. by rewrite <-app_assoc.
      * rewrite IH, decide_False; [done|].
        unfold suffixed. rewrite Hends. by intros [_ ?].
Qed.

(** The two lists of the first loop are the suffix matches and the
    exact matches, in the store's order. *)
Lemma scan_spec st g :
  scan st g = (filter (suffixed g) st, filter (exact g) st).
Proof. unfold scan. by rewrite scan_acc. Qed.

Lemma select_exact st g : select st g = filter (exact g) st.
Proof. reflexivity. Qed.

Lemma effective_entries_spec st g :
  effective_entries st g =
    match filter (exact g) st with
    | [] => filter (suffixed g) st
    | _ :: _ => filter (exact g) st
    end.
Proof. unfold effective_entries. by rewrite scan_spec. Qed.

(** [load_group] in one equation: it never touches the state. *)
Lemma load_group_unfold st g d (sd : bool) s :
  load_group st g d sd s =
    (s, Return match effective_entries st g with
               | [] => if sd then None else as_result d
               | _ :: _ => Some (store_all g (seed d sd) (effective_entries st g))
               end).
Proof.
  unfold load_group, effective_entries, seed.
  destruct (scan st g) as [pre ovr].
  destruct (list_or ovr pre) as [|ep l]; simpl; [by destruct sd|done].
Qed.

Lemma store_all_snoc g m l ep :
  store_all g m (l ++ [ep]) = <[effective_name g ep := _defer_load_ep ep]> (store_all g m l).
Proof. unfold store_all. by rewrite foldl_app. Qed.

Lemma winner_snoc g k l ep :
  winner g k (l ++ [ep]) =
    if decide (effective_name g ep = k) then Some ep else winner g k l.
Proof.
  unfold winner. rewrite filter_app, filter_cons, filter_nil.
  destruct (decide (effective_name g ep = k)).
  - by rewrite last_snoc.
  - by rewrite app_nil_r.
Qed.

(** What the second loop leaves under each key: the closure of the
    last entry stored there, else what was there before. *)
Lemma store_all_lookup g m l k :
  store_all g m l !! k =
    match winner g k l with
    | Some ep => Some (_defer_load_ep ep)
    | None => m !! k
    end.
Proof.
  induction l as [|ep l IH] using rev_ind; [done|].
  rewrite store_all_snoc, winner_snoc, lookup_insert.
  by destruct (decide (effective_name g ep = k)).
Qed.

Lemma winner_elem g k l ep :
  winner g k l = Some ep → ep ∈ l ∧ effective_name g ep = k.
Proof.
  unfold winner. intros H%last_Some_elem_of.
  by apply list_elem_of_filter in H as [? ?].
Qed.

Lemma winner_exists g l ep :
  ep ∈ l → is_Some (winner g (effective_name g ep) l).
Proof.
  intros Hin. unfold winner.
  destruct (filter _ l) as [|x xs] eqn:Hf using rev_ind.
  - assert (ep ∈ filter (λ ep', effective_name g ep' = effective_name g ep) l) as H
      by by apply list_elem_of_filter.
    rewrite Hf in H. by apply elem_of_nil in H.
  - rewrite last_snoc. eauto.
Qed.


(** An exact match is stored under its bare name. *)
Lemma effective_name_exact g ep :
  exact g ep → effective_name g ep = EntryPoint.name ep.
Proof. unfold exact, effective_name. intros <-. by rewrite replace_self. Qed.

Lemma store_all_exact g m l :
  Forall (exact g) l →
  store_all g m l =
    foldl (λ eps ep, <[EntryPoint.name ep := _defer_load_ep ep]> eps) m l.
Proof.
  revert m. induction l as [|ep l IH]; intros m Hall; [done|].
  apply Forall_cons in Hall as [Hep Hl]. simpl.
  unfold store_all in *. simpl. rewrite effective_name_exact by done.
  by apply IH.
Qed.

Lemma filter_all {A} (P : A → Prop) `{∀ x, Decision (P x)} (l : list A) :
  (∀ x, x ∈ l → P x) → filter P l = l.
Proof.
  induction l as [|x l IH]; intros Hall; [done|].
  rewrite filter_cons, decide_True by (apply Hall; left).
  f_equal. apply IH. intros y Hy. apply Hall. by right.
Qed.

Lemma filter_none {A} (P : A → Prop) `{∀ x, Decision (P x)} (l : list A) :
  (∀ x, x ∈ l → ¬ P x) → filter P l = [].
Proof.
  induction l as [|x l IH]; intros Hall; [done|].
  rewrite filter_cons, decide_False by (apply Hall; left).
  apply IH. intros y Hy. apply Hall. by right.
Qed.

Lemma effective_entries_elem st g ep :
  ep ∈ effective_entries st g →
  ep ∈ st ∧ PyStr.endswith (EntryPoint.group ep) g = true.
Proof.
  rewrite effective_entries_spec.
  destruct (filter (exact g) st) as [|x l] eqn:Hex.
  - intros [[_ ?] ?]%list_elem_of_filter. done.
  - rewrite <-Hex. intros [Hg ?]%list_elem_of_filter. split; [done|].
    unfold exact in Hg. rewrite Hg. apply endswith_refl.
Qed.

Lemma seed_lookup_closure d (sd : bool) k f :
  seed (Exc := Exc) (World := World) d sd !! k ≠ Some (Closure f).
Proof.
  unfold seed, dict_update.
  destruct (negb sd && truthy d); [|by rewrite lookup_empty].
  destruct d as [dm|]; [|by rewrite lookup_empty].
  rewrite lookup_union, lookup_fmap, lookup_empty.
  by destruct (dm !! k).
Qed.

Lemma seed_some (dm : gmap string Val) :
  seed (Exc := Exc) (World := World) (Some dm) false = Given <$> dm.
Proof.
  unfold seed, truthy, dict_update. simpl.
  destruct (decide (dm = ∅)) as [->|Hne].
  - rewrite bool_decide_eq_true_2 by done. simpl. by rewrite fmap_empty.
  - rewrite bool_decide_eq_false_2 by done. simpl. apply (right_id_L ∅ (∪)).
Qed.

Lemma loads_app (tr tr' : list (@event Val)) :
  loads (tr ++ tr') = loads tr + loads tr'.
Proof.
  induction tr as [|[ep|f args kwargs] tr IH]; simpl; [done| |done].
  by rewrite IH.
Qed.

(** Every call of the inner function asks the loader exactly once. *)
Lemma run_loads_once ep args kwargs s :
  loads (trace (run ep args kwargs s).1) = S (loads (trace s)).
Proof.
  unfold run, do_load, do_call, bind, lift_host.
  destruct (attr ep); destruct (ep_load ep (world s)) as [w [e|f]]; simpl;
    try destruct (py_call f args kwargs w) as [w' r]; simpl;
    rewrite ?loads_app; simpl; lia.
Qed.

Lemma no_match_names st g n :
  (∀ ep, ep ∈ st → ¬ (EntryPoint.group ep = g ∧ EntryPoint.name ep = n)) →
  n ∉ names (select st g).
Proof.
  intros Hno. unfold names, select.
  rewrite elem_of_list_to_set, list_elem_of_fmap.
  intros (ep & -> & [? ?]%list_elem_of_filter). by eapply Hno.
Qed.

Lemma no_match_getitem st g n s :
  (∀ ep, ep ∈ st → ¬ (EntryPoint.group ep = g ∧ EntryPoint.name ep = n)) →
  getitem (Exc := Exc) (select st g) n s = (s, Raise (KeyError n)).
Proof.
  intros Hno. unfold getitem.
  rewrite filter_none; [done|].
  intros ep [? ?]%list_elem_of_filter ?. by eapply Hno.
Qed.

(** ** [load_group] *)

(** C1. When at least one entry's group equals the requested group,
    [load_group] returns the dict obtained by storing the exact
    matches, each under its bare name, on top of the seeded defaults;
    the result is the same for any store with the same exact matches,
    so entries that only match by suffix contribute nothing. *)
Theorem exact_match_shadows_suffix st g d (sd : bool) s :
  (∃ ep, ep ∈ st ∧ EntryPoint.group ep = g) →
  load_group st g d sd s =
    (s, Return (Some (foldl (λ eps ep, <[EntryPoint.name ep := _defer_load_ep ep]> eps)
                            (seed d sd) (select st g))))
  ∧ ∀ st', select st' g = select st g →
           load_group st' g d sd s = load_group st g d sd s.
Proof.
  intros (ep & Hin & Hg).
  assert (ep ∈ filter (exact g) st) as Hex by by apply list_elem_of_filter.
  assert (∀ st', select st' g = select st g →
            effective_entries st' g = filter (exact g) st) as Heff.
  { intros st' Hsel. rewrite effective_entries_spec, <-!select_exact, Hsel.
    rewrite select_exact. destruct (filter (exact g) st); [|done].
    by apply elem_of_nil in Hex. }
  assert (∀ st', select st' g = select st g →
            load_group st' g d sd s =
              (s, Return (Some (store_all g (seed d sd) (filter (exact g) st))))) as Hres.
  { intros st' Hsel. rewrite load_group_unfold, (Heff st' Hsel).
    destruct (filter (exact g) st); [|done]. by apply elem_of_nil in Hex. }
  split.
  - rewrite (Hres st eq_refl), select_exact. do 3 f_equal.
    apply store_all_exact, Forall_forall.
    by intros x [? _]%list_elem_of_filter.
  - intros st' Hsel. by rewrite (Hres st' Hsel), (Hres st eq_refl).
Qed.

(** C2. When no entry matches the requested group exactly, every
    suffix-matching entry has its key in the result, and the key is a
    prefix followed by the entry's name.  The prefix is the entry's
    group with the requested group removed as a literal substring, in
    the sense of [removed], and is the only such string: it is what
    comes before the requested group when that occurs at the end only,
    and an occurrence at the head of the group is removed like any
    other.  (For the empty requested group the prefix is the whole
    group.)  The value under the key is the closure of the last
    suffix-matching entry with that key, the entry itself when no other
    shares the key, and a closure sits under such keys only. *)
Theorem suffix_match_key st g d (sd : bool) s ep :
  select st g = [] →
  ep ∈ st →
  PyStr.endswith (EntryPoint.group ep) g = true →
  ∃ prefix m ep',
    prefix = PyStr.replace (EntryPoint.group ep) g EmptyString
    ∧ (g ≠ EmptyString →
         removed g (EntryPoint.group ep) prefix
         ∧ (∀ r, removed g (EntryPoint.group ep) r → r = prefix)
         ∧ (∀ p, EntryPoint.group ep = p +:+ g →
                 (∀ i, (i < String.length p)%nat →
                       PyStr.startswith (PyStr.drop i (p +:+ g)) g = false) →
                 prefix = p)
         ∧ (∀ q, EntryPoint.group ep = g +:+ q → removed g q prefix))
    ∧ (g = EmptyString → prefix = EntryPoint.group ep)
    ∧ load_group st g d sd s = (s, Return (Some m))
    ∧ m !! (prefix +:+ EntryPoint.name ep) = Some (_defer_load_ep ep')
    ∧ ep' ∈ st ∧ suffixed g ep'
    ∧ PyStr.replace (EntryPoint.group ep') g EmptyString +:+ EntryPoint.name ep'
        = prefix +:+ EntryPoint.name ep
    ∧ ((∀ x, x ∈ st → suffixed g x →
             effective_name g x = effective_name g ep → x = ep) → ep' = ep)
    ∧ (∀ k f, m !! k = Some (Closure f) →
         ∃ x, x ∈ st ∧ suffixed g x ∧ f = run x
              ∧ k = PyStr.replace (EntryPoint.group x) g EmptyString +:+ EntryPoint.name x
              ∧ (g ≠ EmptyString →
                   removed g (EntryPoint.group x)
                           (PyStr.replace (EntryPoint.group x) g EmptyString))).
Proof.
  intros Hsel Hin Hends.
  assert (effective_entries st g = filter (suffixed g) st) as Heff.
  { rewrite effective_entries_spec, <-select_exact. by rewrite Hsel. }
  assert (suffixed g ep) as Hsuf.
  { split; [|done]. intros Hg.
    assert (ep ∈ select st g) as H by by apply list_elem_of_filter.
    rewrite Hsel in H. by apply elem_of_nil in H. }
  assert (ep ∈ filter (suffixed g) st) as Hep by by apply list_elem_of_filter.
  destruct (winner_exists g _ _ Hep) as [ep' Hw].
  destruct (winner_elem _ _ _ _ Hw) as [[Hsuf' Hin']%list_elem_of_filter Hkey].
  exists (PyStr.replace (EntryPoint.group ep) g EmptyString),
         (store_all g (seed d sd) (filter (suffixed g) st)), ep'.
  split; [done|]. split; [|split; [|split; [|split; [|split; [|split; [|split; [|split]]]]]]];
    try done.
  - intros Hg. split; [by apply replace_removed|]. split; [|split].
    + intros r Hr. by apply (removed_functional g (EntryPoint.group ep));
        [|exact Hr|apply replace_removed].
    + intros p Hgrp Honce. rewrite Hgrp. by apply replace_trailing.
    + intros q Hgrp.
      assert (PyStr.replace (EntryPoint.group ep) g EmptyString
              = PyStr.replace q g EmptyString) as ->; [|by apply replace_removed].
      apply (removed_functional g (EntryPoint.group ep)); [done|by apply replace_removed|].
      rewrite Hgrp. by apply removed_occurrence, replace_removed.
  - intros ->. apply replace_empty_pattern.
  - rewrite load_group_unfold, Heff.
    destruct (filter (suffixed g) st); [|done]. by apply elem_of_nil in Hep.
  - rewrite store_all_lookup.
    change (PyStr.replace (EntryPoint.group ep) g EmptyString +:+ EntryPoint.name ep)
      with (effective_name g ep).
    by rewrite Hw.
  - intros Huniq. by apply Huniq.
  - intros k f. rewrite store_all_lookup.
    destruct (winner g k (filter (suffixed g) st)) as [x|] eqn:Hx.
    + intros [= <-].
      destruct (winner_elem _ _ _ _ Hx) as [[? ?]%list_elem_of_filter <-].
      exists x. split; [done|]. split; [done|]. split; [done|]. split; [done|].
      intros Hg. by apply replace_removed.
    + intros H. by apply seed_lookup_closure in H.
Qed.

(** C3. When no entry's group equals or ends with the requested group,
    [load_group] returns [None] if [skip_defaults] is set and otherwise
    hands back [default] as it is, [None] included. *)
Theorem empty_effective_set st g d (sd : bool) s :
  (∀ ep, ep ∈ st → ¬ exact g ep ∧ ¬ suffixed g ep) →
  load_group st g d sd s = (s, Return (if sd then None else as_result d)).
Proof.
  intros Hno. rewrite load_group_unfold, effective_entries_spec.
  rewrite (filter_none (exact g)) by (intros x Hx; by apply Hno).
  by rewrite (filter_none (suffixed g)) by (intros x Hx; by apply Hno).
Qed.


(** ** Deferred handles *)

(** C5. Calling the closure of an entry whose reference is a bare
    module asks the loader once and gives back exactly the loader's
    outcome, the loaded module when there is one; the arguments are
    not passed to anything and no call is made. *)
Theorem module_handle_ignores_arguments ep args kwargs s :
  attr ep = None →
  invoke (_defer_load_ep ep) args kwargs s =
    (mkState (ep_load ep (world s)).1 (trace s ++ [Loaded ep])%list,
     match (ep_load ep (world s)).2 with
     | inl e => Raise (HostError e)
     | inr module => Return module
     end).
Proof.
  intros Hattr. simpl. unfold run, do_load, lift_host. rewrite Hattr.
  by destruct (ep_load ep (world s)).
Qed.

(** C6. Calling the closure of an entry whose reference names an
    attribute loads the target and, once loaded, calls it with the
    very arguments given; the result of the closure is the result of
    that call. *)
Theorem function_handle_forwards_arguments ep a args kwargs s w f :
  attr ep = Some a →
  ep_load ep (world s) = (w, inr f) →
  invoke (_defer_load_ep ep) args kwargs s =
    (mkState (py_call f args kwargs w).1
             (trace s ++ [Loaded ep; Called f args kwargs])%list,
     match (py_call f args kwargs w).2 with
     | inl e => Raise (HostError e)
     | inr v => Return v
     end).
Proof.
  intros Hattr Hload. simpl. unfold run, bind, do_load, do_call, lift_host.
  rewrite Hattr, Hload. simpl.
  destruct (py_call f args kwargs w). simpl. by rewrite <-app_assoc.
Qed.

(** C9. [load_group] returns without changing the state: nothing is
    loaded or called.  Every closure in its result is [run] of an entry
    of the store, and each call of it, on any arguments and in any
    state, asks the loader exactly once. *)
Theorem load_group_defers_loading st g d (sd : bool) s :
  ∃ r,
    load_group st g d sd s = (s, Return r)
    ∧ ∀ m k f, r = Some m → m !! k = Some (Closure f) →
        ∃ ep, ep ∈ st ∧ f = run ep
              ∧ ∀ args kwargs s',
                  loads (trace (f args kwargs s').1) = S (loads (trace s')).
Proof.
  rewrite load_group_unfold. eexists. split; [done|].
  intros m k f Hr Hk.
  destruct (effective_entries st g) as [|x l] eqn:Heff.
  - destruct sd; [done|]. destruct d as [dm|]; [|done].
    simpl in Hr. injection Hr as <-. rewrite lookup_fmap in Hk.
    by destruct (dm !! k).
  - rewrite <-Heff in Hr. injection Hr as <-. rewrite store_all_lookup in Hk.
    destruct (winner g k (effective_entries st g)) as [ep|] eqn:Hw.
    + injection Hk as <-.
      destruct (winner_elem _ _ _ _ Hw) as [Hin _].
      apply effective_entries_elem in Hin as [Hin _].
      exists ep. split; [done|]. split; [done|].
      intros args kwargs s'. apply run_loads_once.
    + by apply seed_lookup_closure in Hk.
Qed.

(** C10 (amended). For the empty requested group and a store in which
    no entry has the empty group, every entry is a suffix match, and
    the result has, for every entry, the key made of its group directly
    followed by its name. *)
Theorem empty_group_resolves_all st d (sd : bool) s ep :
  (∀ x, x ∈ st → EntryPoint.group x ≠ EmptyString) →
  ep ∈ st →
  scan st EmptyString = (st, [])
  ∧ ∃ m ep',
      load_group st EmptyString d sd s = (s, Return (Some m))
      ∧ m !! (EntryPoint.group ep +:+ EntryPoint.name ep) = Some (_defer_load_ep ep')
      ∧ ep' ∈ st
      ∧ EntryPoint.group ep' +:+ EntryPoint.name ep'
          = EntryPoint.group ep +:+ EntryPoint.name ep.
Proof.
  intros Hgrp Hin.
  assert (filter (suffixed EmptyString) st = st) as Hsuf.
  { apply filter_all. intros x Hx. split; [by apply Hgrp|apply endswith_empty]. }
  assert (filter (exact EmptyString) st = []) as Hex.
  { apply filter_none. intros x Hx. by apply Hgrp. }
  assert (∀ x, effective_name EmptyString x
               = EntryPoint.group x +:+ EntryPoint.name x) as Hname.
  { intros x. unfold effective_name. by rewrite replace_empty_pattern. }
  split; [by rewrite scan_spec, Hsuf, Hex|].
  destruct (winner_exists EmptyString _ _ Hin) as [ep' Hw].
  destruct (winner_elem _ _ _ _ Hw) as [Hin' Hkey].
  exists (store_all EmptyString (seed d sd) st), ep'.
  split; [|split; [|split]]; [| |done|].
  - rewrite load_group_unfold, effective_entries_spec, Hex, Hsuf.
    destruct st; [|done]. by apply elem_of_nil in Hin.
  - by rewrite <-Hname, store_all_lookup, Hw.
  - by rewrite <-!Hname.
Qed.

(** ** [load] *)

(** C7. When no entry has both the group and the name asked for,
    [load] called with a default returns that default, and neither
    loads nor calls anything. *)
Theorem load_returns_default st g n (D : Val) s :
  (∀ ep, ep ∈ st → ¬ (EntryPoint.group ep = g ∧ EntryPoint.name ep = n)) →
  load st g n (Some D) s = (s, Return D).
Proof.
  intros Hno. unfold load.
  by rewrite bool_decide_eq_true_2 by by apply no_match_names.
Qed.

(** C8 (amended). When no entry has both the group and the name asked
    for, [load] called without a default raises [KeyError] carrying the
    name, whatever the group; nothing is loaded. *)
Theorem load_missing_raises_key_error st g n s :
  (∀ ep, ep ∈ st → ¬ (EntryPoint.group ep = g ∧ EntryPoint.name ep = n)) →
  load st g n None s = (s, Raise (KeyError n))
  ∧ error_names (Exc := Exc) (KeyError n) n = true.
Proof.
  intros Hno. split; [|apply contains_refl].
  unfold load, bind.
  assert ((if bool_decide (n ∉ names (select st g)) then None else None)
          = (None : option Val)) as -> by by destruct (bool_decide _).
  by rewrite no_match_getitem.
Qed.

End HostFacts.

(** ** The properties on the concrete host *)

Lemma exact_match_shadows_suffix_witness :
  (∃ ep, ep ∈ Toy.mixed_store ∧ EntryPoint.group ep = "foo")
  ∧ Toy.load_group Toy.mixed_store "foo" None false Toy.s0 =
      (Toy.s0, Return (Some (foldl (λ eps ep, <[EntryPoint.name ep := Toy.handle ep]> eps)
                                   (seed None false) (select Toy.mixed_store "foo"))))
  ∧ ∀ st', select st' "foo" = select Toy.mixed_store "foo" →
           Toy.load_group st' "foo" None false Toy.s0
           = Toy.load_group Toy.mixed_store "foo" None false Toy.s0.
Proof.
  assert (∃ ep, ep ∈ Toy.mixed_store ∧ EntryPoint.group ep = "foo") as H.
  { exists Toy.bar. split; [right; left|reflexivity]. }
  split; [exact H|].
  exact (exact_match_shadows_suffix Toy.attr Toy.ep_load Toy.py_call
           Toy.mixed_store "foo" None false Toy.s0 H).
Defined.

Lemma suffix_match_key_witness :
  (select Toy.ns_store "foo" = []
   ∧ Toy.ns_bar ∈ Toy.ns_store
   ∧ PyStr.endswith (EntryPoint.group Toy.ns_bar) "foo" = true
   ∧ ∃ m,
       Toy.load_group Toy.ns_store "foo" None false Toy.s0 = (Toy.s0, Return (Some m))
       ∧ m !! "ns.bar" = Some (Toy.handle Toy.ns_bar))
  ∧ (select [Toy.twice_bar] "foo" = []
     ∧ Toy.twice_bar ∈ [Toy.twice_bar]
     ∧ PyStr.endswith (EntryPoint.group Toy.twice_bar) "foo" = true
     ∧ ∃ m,
         Toy.load_group [Toy.twice_bar] "foo" None false Toy.s0
         = (Toy.s0, Return (Some m))
         ∧ m !! ".bar" = Some (Toy.handle Toy.twice_bar)
         ∧ m !! "foofoo.bar" = None).
Proof.
  split.
  - assert (select Toy.ns_store "foo" = []) as H1 by reflexivity.
    assert (Toy.ns_bar ∈ Toy.ns_store) as H2 by left.
    assert (PyStr.endswith (EntryPoint.group Toy.ns_bar) "foo" = true) as H3
      by reflexivity.
    split; [exact H1|]. split; [exact H2|]. split; [exact H3|].
    destruct (suffix_match_key Toy.attr Toy.ep_load Toy.py_call
                Toy.ns_store "foo" None false Toy.s0 Toy.ns_bar H1 H2 H3)
      as (prefix & m & ep' & _ & Hpre & _ & Hm & Hk & _ & _ & _ & Huniq & _).
    assert ("foo" ≠ EmptyString) as Hg by (intros [=]).
    destruct (Hpre Hg) as (_ & Honly & _).
    assert (removed "foo" "ns.foo" "ns.") as Hrem.
    { do 3 (apply removed_keep; [reflexivity|]).
      apply (removed_occurrence "foo" EmptyString EmptyString), removed_nil. }
    assert (prefix = "ns.") as -> by (symmetry; exact (Honly _ Hrem)).
    assert (ep' = Toy.ns_bar) as ->.
    { apply Huniq. intros x Hx _ _. apply list_elem_of_singleton in Hx. exact Hx. }
    exists m. split; [exact Hm|exact Hk].
  - assert (select [Toy.twice_bar] "foo" = []) as H1 by reflexivity.
    assert (Toy.twice_bar ∈ [Toy.twice_bar]) as H2 by left.
    assert (PyStr.endswith (EntryPoint.group Toy.twice_bar) "foo" = true) as H3
      by reflexivity.
    split; [exact H1|]. split; [exact H2|]. split; [exact H3|].
    destruct (suffix_match_key Toy.attr Toy.ep_load Toy.py_call
                [Toy.twice_bar] "foo" None false Toy.s0 Toy.twice_bar H1 H2 H3)
      as (prefix & m & ep' & _ & Hpre & _ & Hm & Hk & _ & _ & _ & Huniq & Hcl).
    assert ("foo" ≠ EmptyString) as Hg by (intros [=]).
    destruct (Hpre Hg) as (_ & Honly & _).
    assert (removed "foo" "foofoo.foo" ".") as Hrem.
    { apply (removed_occurrence "foo" "foo.foo" ".").
      apply (removed_occurrence "foo" ".foo" ".").
      apply removed_keep; [reflexivity|].
      apply (removed_occurrence "foo" EmptyString EmptyString), removed_nil. }
    assert (prefix = ".") as -> by (symmetry; exact (Honly _ Hrem)).
    assert (ep' = Toy.twice_bar) as ->.
    { apply Huniq. intros x Hx _ _. apply list_elem_of_singleton in Hx. exact Hx. }
    exists m. split; [exact Hm|]. split; [exact Hk|].
    unfold Toy.load_group in Hm. rewrite load_group_unfold in Hm.
    assert (m = store_all Toy.attr Toy.ep_load Toy.py_call "foo" ∅ [Toy.twice_bar])
      as -> by (injection Hm as <-; reflexivity).
    rewrite store_all_lookup. reflexivity.
Defined.

Lemma empty_effective_set_witness :
  (∀ ep, ep ∈ Toy.foo_store → ¬ exact "food" ep ∧ ¬ suffixed "food" ep)
  ∧ Toy.load_group Toy.foo_store "food" (Some {[ "x" := "f" ]}) true Toy.s0
    = (Toy.s0, Return None)
  ∧ Toy.load_group Toy.foo_store "food" (Some {[ "x" := "f" ]}) false Toy.s0
    = (Toy.s0, Return (Some (Given <$> {[ "x" := "f" ]}))).
Proof.
  assert (∀ ep, ep ∈ Toy.foo_store → ¬ exact "food" ep ∧ ¬ suffixed "food" ep) as H.
  { intros ep Hep. unfold Toy.foo_store in Hep.
    apply elem_of_cons in Hep as [->|Hep];
      [|apply list_elem_of_singleton in Hep as ->];
      (split; [intros [=]|intros [_ [=]]]). }
  split; [exact H|]. split.
  - exact (empty_effective_set Toy.attr Toy.ep_load Toy.py_call
             Toy.foo_store "food" (Some {[ "x" := "f" ]}) true Toy.s0 H).
  - exact (empty_effective_set Toy.attr Toy.ep_load Toy.py_call
             Toy.foo_store "food" (Some {[ "x" := "f" ]}) false Toy.s0 H).
Defined.


Lemma module_handle_ignores_arguments_witness :
  Toy.attr Toy.baz = None
  ∧ Toy.call (Toy.handle Toy.baz) ["1"] [("k", "2")] Toy.s0
    = (mkState 1 [Loaded Toy.baz], Return "pkg.mod2").
Proof.
  assert (Toy.attr Toy.baz = None) as H by reflexivity.
  split; [exact H|].
  exact (module_handle_ignores_arguments Toy.attr Toy.ep_load Toy.py_call
           Toy.baz ["1"] [("k", "2")] Toy.s0 H).
Defined.

Lemma function_handle_forwards_arguments_witness :
  Toy.attr Toy.bar = Some "fn"
  ∧ Toy.ep_load Toy.bar (world Toy.s0) = (1, inr "pkg.mod:fn")
  ∧ Toy.call (Toy.handle Toy.bar) ["1"] [("k", "2")] Toy.s0
    = (mkState 1 [Loaded Toy.bar; Called "pkg.mod:fn" ["1"] [("k", "2")]],
       Return "pkg.mod:fn(1,2)").
Proof.
  assert (Toy.attr Toy.bar = Some "fn") as H1 by reflexivity.
  assert (Toy.ep_load Toy.bar (world Toy.s0) = (1, inr "pkg.mod:fn")) as H2 by reflexivity.
  split; [exact H1|]. split; [exact H2|].
  exact (function_handle_forwards_arguments Toy.attr Toy.ep_load Toy.py_call
           Toy.bar "fn" ["1"] [("k", "2")] Toy.s0 1 "pkg.mod:fn" H1 H2).
Defined.

Lemma load_returns_default_witness :
  (∀ ep, ep ∈ Toy.foo_store →
         ¬ (EntryPoint.group ep = "foo" ∧ EntryPoint.name ep = "qux"))
  ∧ Toy.load Toy.foo_store "foo" "qux" (Some "fallback") Toy.s0
    = (Toy.s0, Return "fallback").
Proof.
  assert (∀ ep, ep ∈ Toy.foo_store →
            ¬ (EntryPoint.group ep = "foo" ∧ EntryPoint.name ep = "qux")) as H.
  { intros ep Hep. unfold Toy.foo_store in Hep.
    apply elem_of_cons in Hep as [->|Hep];
      [|apply list_elem_of_singleton in Hep as ->]; intros [_ [=]]. }
  split; [exact H|].
  exact (load_returns_default Toy.ep_load Toy.foo_store "foo" "qux" "fallback" Toy.s0 H).
Defined.

Lemma load_missing_raises_key_error_witness :
  (∀ ep, ep ∈ Toy.foo_store →
         ¬ (EntryPoint.group ep = "foo" ∧ EntryPoint.name ep = "qux"))
  ∧ Toy.load Toy.foo_store "foo" "qux" None Toy.s0 = (Toy.s0, Raise (KeyError "qux"))
  ∧ error_names (Exc := Toy.Exc) (KeyError "qux") "qux" = true.
Proof.
  assert (∀ ep, ep ∈ Toy.foo_store →
            ¬ (EntryPoint.group ep = "foo" ∧ EntryPoint.name ep = "qux")) as H.
  { intros ep Hep. unfold Toy.foo_store in Hep.
    apply elem_of_cons in Hep as [->|Hep];
      [|apply list_elem_of_singleton in Hep as ->]; intros [_ [=]]. }
  split; [exact H|].
  exact (load_missing_raises_key_error Toy.ep_load Toy.foo_store "foo" "qux" Toy.s0 H).
Defined.

(** The error raised for a missing name does not mention the group:
    asking group [foo] for [qux] raises [KeyError] of [qux] alone. *)
Lemma load_error_omits_group :
  ¬ ∃ e, Toy.load Toy.foo_store "foo" "qux" None Toy.s0 = (Toy.s0, Raise e)
         ∧ error_names e "foo" = true ∧ error_names e "qux" = true.
Proof.
  intros (e & He & Hgroup & _).
  vm_compute in He. injection He as <-.
  vm_compute in Hgroup. discriminate.
Qed.

Lemma load_group_defers_loading_witness :
  ∃ m f,
    Toy.load_group Toy.foo_store "foo" None false Toy.s0 = (Toy.s0, Return (Some m))
    ∧ m !! "bar" = Some (Closure f)
    ∧ loads (trace (f ["1"] [] Toy.s0).1) = 1
    ∧ loads (trace (f [] [] (f ["1"] [] Toy.s0).1).1) = 2.
Proof.
  destruct (load_group_defers_loading Toy.attr Toy.ep_load Toy.py_call
              Toy.foo_store "foo" None false Toy.s0) as (r & Hr & Hcl).
  assert (r = Some (store_all Toy.attr Toy.ep_load Toy.py_call "foo" ∅ Toy.foo_store)) as Hres.
  { rewrite load_group_unfold in Hr. injection Hr as <-. reflexivity. }
  assert (store_all Toy.attr Toy.ep_load Toy.py_call "foo" ∅ Toy.foo_store !! "bar"
          = Some (Closure (run Toy.attr Toy.ep_load Toy.py_call Toy.bar))) as Hk.
  { rewrite store_all_lookup. reflexivity. }
  destruct (Hcl _ "bar" _ Hres Hk) as (ep & _ & _ & Hloads).
  eexists _, _. split; [unfold Toy.load_group; by rewrite Hr, Hres|]. split; [exact Hk|].
  split; [|rewrite Hloads]; rewrite Hloads; reflexivity.
Defined.

Lemma empty_group_resolves_all_witness :
  (∀ x, x ∈ Toy.foo_store → EntryPoint.group x ≠ EmptyString)
  ∧ Toy.bar ∈ Toy.foo_store
  ∧ scan Toy.foo_store EmptyString = (Toy.foo_store, [])
  ∧ ∃ m ep',
      Toy.load_group Toy.foo_store EmptyString None false Toy.s0 = (Toy.s0, Return (Some m))
      ∧ m !! "foobar" = Some (Toy.handle ep').
Proof.
  assert (∀ x, x ∈ Toy.foo_store → EntryPoint.group x ≠ EmptyString) as H1.
  { intros ep Hep. unfold Toy.foo_store in Hep.
    apply elem_of_cons in Hep as [->|Hep];
      [|apply list_elem_of_singleton in Hep as ->]; intros [=]. }
  assert (Toy.bar ∈ Toy.foo_store) as H2 by left.
  split; [exact H1|]. split; [exact H2|].
  destruct (empty_group_resolves_all Toy.attr Toy.ep_load Toy.py_call
              Toy.foo_store None false Toy.s0 Toy.bar H1 H2)
    as (Hscan & m & ep' & Hm & Hk & _).
  split; [exact Hscan|]. exists m, ep'. split; [exact Hm|exact Hk].
Defined.

(** With an entry of the empty group in the store, that entry is an
    exact match of the empty requested group and shadows the others:
    the key made of group and name of [bar] is absent. *)
Lemma empty_group_exact_shadows :
  ¬ ∀ ep, ep ∈ Toy.anon_store → EntryPoint.group ep ≠ EmptyString →
      ∃ m, Toy.load_group Toy.anon_store EmptyString None false Toy.s0
           = (Toy.s0, Return (Some m))
           ∧ is_Some (m !! (EntryPoint.group ep +:+ EntryPoint.name ep)).
Proof.
  intros H. destruct (H Toy.bar) as (m & Hm & Hk).
  - right; left.
  - intros [=].
  - unfold Toy.load_group in Hm. rewrite load_group_unfold in Hm.
    assert (m = store_all Toy.attr Toy.ep_load Toy.py_call EmptyString ∅ [Toy.anon])
      as -> by (injection Hm as <-; reflexivity).
    rewrite store_all_lookup in Hk.
    destruct Hk as [o Hk]. vm_compute in Hk. discriminate.
Qed.

Example replace_ns : PyStr.replace "ns.foo" "foo" EmptyString = "ns.".
Proof. reflexivity. Qed.
Example replace_twice : PyStr.replace "foofoo.foo" "foo" EmptyString = ".".
Proof. reflexivity. Qed.
Example replace_empty_pat : PyStr.replace "abc" EmptyString "-" = "-a-b-c-".
Proof. reflexivity. Qed.
Example replace_no_rescan : PyStr.replace "ffoooo" "foo" EmptyString = "foo".
Proof. reflexivity. Qed.
Example endswith_ex : PyStr.endswith "ns.foo" "foo" = true /\ PyStr.endswith "foo" "ns.foo" = false
  /\ PyStr.endswith "abc" EmptyString = true /\ PyStr.endswith "food" "foo" = false.
Proof. repeat split; reflexivity. Qed.

(** The documented cases of [load_group]. *)
Example namespaced_group_only :
  Toy.load_group Toy.ns_store "foo" None false Toy.s0
  = (Toy.s0, Return (Some {[ "ns.bar" := Toy.handle Toy.ns_bar ]})).
Proof. vm_compute. reflexivity. Qed.

Example group_named_twice :
  Toy.load_group [Toy.twice_bar] "foo" None false Toy.s0
  = (Toy.s0, Return (Some {[ ".bar" := Toy.handle Toy.twice_bar ]})).
Proof. vm_compute. reflexivity. Qed.

Example exact_group_wins :
  Toy.load_group Toy.mixed_store "foo" None false Toy.s0
  = (Toy.s0, Return (Some {[ "bar" := Toy.handle Toy.bar; "baz" := Toy.handle Toy.baz ]})).
Proof. vm_compute. reflexivity. Qed.

Example unknown_group :
  Toy.load_group Toy.foo_store "food" None false Toy.s0 = (Toy.s0, Return None).
Proof. reflexivity. Qed.

Example load_found :
  Toy.load Toy.foo_store "foo" "bar" None Toy.s0
  = (mkState 1 [Loaded Toy.bar], Return "pkg.mod:fn").
Proof. vm_compute. reflexivity. Qed.

(** * Further properties of the module *)

Section MoreFacts.
Context {Val Exc World : Type}.
Variable attr : EntryPoint.t → option string.
Variable ep_load : EntryPoint.t → World → World * (Exc + Val).
Variable py_call : Val → list Val → list (string * Val) → World → World * (Exc + Val).

Local Abbreviation _defer_load_ep := (_defer_load_ep attr ep_load py_call).
Local Abbreviation store_all := (store_all attr ep_load py_call).
Local Abbreviation load_group := (load_group attr ep_load py_call).
Local Abbreviation run := (run attr ep_load py_call).
Local Abbreviation invoke := (invoke py_call).
Local Abbreviation load := (load ep_load).
Local Abbreviation obj := (@obj Val Exc World).
Local Abbreviation state := (@state Val World).
Local Abbreviation effective_entries_spec := (effective_entries_spec attr ep_load).

Implicit Types (st : list EntryPoint.t) (ep : EntryPoint.t) (g k n : string).
Implicit Types (d : option (gmap string Val)) (s : state) (m : gmap string obj).

(** Entries of a group with a given name. *)
Lemma filter_name_select st g n :
  filter (λ ep, EntryPoint.name ep = n) (select st g)
  = filter (λ ep, EntryPoint.group ep = g ∧ EntryPoint.name ep = n) st.
Proof.
  unfold select. induction st as [|x st IH]; [done|].
  rewrite !filter_cons.
  destruct (decide (EntryPoint.group x = g)) as [Hg|Hg].
  - rewrite filter_cons, IH.
    destruct (decide (EntryPoint.name x = n)) as [Hn|Hn].
    + by rewrite decide_True.
    + rewrite decide_False; [done|]. by intros [_ ?].
  - rewrite IH, decide_False; [done|]. by intros [? _].
Qed.

Lemma filter_key_exact st g n :
  filter (λ ep, effective_name g ep = n) (filter (exact g) st)
  = filter (λ ep, EntryPoint.group ep = g ∧ EntryPoint.name ep = n) st.
Proof.
  induction st as [|x st IH]; [done|].
  rewrite !filter_cons.
  destruct (decide (exact g x)) as [Hg|Hg].
  - rewrite filter_cons, IH, (effective_name_exact _ _ Hg).
    destruct (decide (EntryPoint.name x = n)) as [Hn|Hn].
    + by rewrite decide_True.
    + rewrite decide_False; [done|]. by intros [_ ?].
  - rewrite IH, decide_False; [done|]. by intros [? _].
Qed.

Lemma effective_entries_nil st g :
  effective_entries st g = [] ↔
  ∀ ep, ep ∈ st → PyStr.endswith (EntryPoint.group ep) g = false.
Proof.
  rewrite effective_entries_spec. split.
  - intros Hnil ep Hin.
    destruct (PyStr.endswith (EntryPoint.group ep) g) eqn:Hends; [|done].
    exfalso. destruct (decide (EntryPoint.group ep = g)) as [Hg|Hg].
    + assert (ep ∈ filter (exact g) st) as H by by apply list_elem_of_filter.
      destruct (filter (exact g) st); [by apply elem_of_nil in H|done].
    + assert (ep ∈ filter (suffixed g) st) as H by by apply list_elem_of_filter.
      destruct (filter (exact g) st); [|done].
      rewrite Hnil in H. by apply elem_of_nil in H.
  - intros Hno.
    rewrite (filter_none (exact g)), (filter_none (suffixed g)); [done| |].
    + intros x Hx [_ Hends]. by rewrite (Hno x Hx) in Hends.
    + intros x Hx Hg. unfold exact in Hg.
      specialize (Hno x Hx). rewrite Hg, endswith_refl in Hno. done.
Qed.

Lemma store_all_dom g m l :
  dom (store_all g m l) = dom m ∪ list_to_set (effective_name g <$> l).
Proof.
  induction l as [|ep l IH] using rev_ind.
  - simpl. set_solver.
  - rewrite store_all_snoc, dom_insert_L, IH, fmap_app, list_to_set_app_L.
    simpl. set_solver.
Qed.

Lemma seed_dom d (sd : bool) :
  dom (seed (Exc := Exc) (World := World) d sd)
  = if sd then ∅ else match d with Some dm => dom dm | None => ∅ end.
Proof.
  destruct sd; [done|]. destruct d as [dm|]; [|done].
  by rewrite seed_some, dom_fmap_L.
Qed.

Lemma winner_perm g k (l l' : list EntryPoint.t) :
  l ≡ₚ l' → NoDup (effective_name g <$> l) → winner g k l = winner g k l'.
Proof.
  intros Hperm Hnd. unfold winner.
  assert (filter (λ ep, effective_name g ep = k) l
          ≡ₚ filter (λ ep, effective_name g ep = k) l') as Hf by by rewrite Hperm.
  assert (NoDup (effective_name g <$> filter (λ ep, effective_name g ep = k) l)) as Hndf.
  { apply (sublist_NoDup _ (effective_name g <$> l)); [exact Hnd|].
    apply fmap_sublist, sublist_filter. }
  destruct (filter (λ ep, effective_name g ep = k) l) as [|a [|b fl]] eqn:Hfl.
  - by apply Permutation_nil_l in Hf as <-.
  - by apply Permutation_singleton_l in Hf as <-.
  - exfalso.
    assert (a ∈ filter (λ ep, effective_name g ep = k) l) as Ha by (rewrite Hfl; left).
    assert (b ∈ filter (λ ep, effective_name g ep = k) l) as Hb
      by (rewrite Hfl; right; left).
    apply list_elem_of_filter in Ha as [Ha _].
    apply list_elem_of_filter in Hb as [Hb _].
    simpl in Hndf. rewrite Ha, Hb in Hndf.
    apply NoDup_cons in Hndf as [Hnotin _]. apply Hnotin. left.
Qed.

(** What [load] does once the name is found in the group. *)
Lemma load_of_found st g n (default : option Val) s ep rest :
  filter (λ x, EntryPoint.group x = g ∧ EntryPoint.name x = n) st = ep :: rest →
  load st g n default s = do_load ep_load ep s.
Proof.
  intros Hfirst.
  assert (ep ∈ filter (λ x, EntryPoint.group x = g ∧ EntryPoint.name x = n) st) as Hin
    by (rewrite Hfirst; left).
  apply list_elem_of_filter in Hin as [[Hg Hn] Hin].
  assert (n ∈ names (select st g)) as Hnames.
  { unfold names, select. rewrite elem_of_list_to_set, list_elem_of_fmap.
    exists ep. split; [done|]. by apply list_elem_of_filter. }
  unfold load. rewrite bool_decide_eq_false_2 by (intros H; by apply H).
  unfold bind, getitem. by rewrite filter_name_select, Hfirst.
Qed.

(** ** [load] when the entry exists *)

(** X1. When the store has entries of the group with the name asked
    for, [load] takes the first of them in store order and returns what
    the loader gives for it, an exception of the loader included; the
    default, if any, plays no part and the target is not called. *)
Theorem load_found_loads_first st g n (default : option Val) s ep rest :
  filter (λ x, EntryPoint.group x = g ∧ EntryPoint.name x = n) st = ep :: rest →
  load st g n default s =
    (mkState (ep_load ep (world s)).1 (trace s ++ [Loaded ep])%list,
     match (ep_load ep (world s)).2 with
     | inl e => Raise (HostError e)
     | inr target => Return target
     end).
Proof.
  intros Hfirst. rewrite (load_of_found _ _ _ _ _ _ _ Hfirst).
  unfold do_load, lift_host. by destruct (ep_load ep (world s)).
Qed.

(** ** Closures *)

(** X2. When the reference names an attribute and the loader fails, the
    closure raises the loader's exception and calls nothing. *)
Theorem handle_load_failure_skips_call ep a args kwargs s w e :
  attr ep = Some a →
  ep_load ep (world s) = (w, inl e) →
  invoke (_defer_load_ep ep) args kwargs s
  = (mkState w (trace s ++ [Loaded ep])%list, Raise (HostError e)).
Proof.
  intros Hattr Hload. simpl. unfold run, bind, do_load, lift_host.
  by rewrite Hattr, Hload.
Qed.

(** ** [load_group] and its defaults *)

(** X3. Setting [skip_defaults] gives the result of passing no default
    at all, whatever the store, the group and the default. *)
Theorem skip_defaults_is_no_default st g d (sd : bool) s :
  load_group st g d true s = load_group st g None sd s.
Proof.
  rewrite !load_group_unfold.
  destruct (effective_entries st g); [by destruct sd|].
  unfold seed. simpl. by destruct sd.
Qed.

(** X4. [load_group] returns [None] exactly when no entry's group ends
    with the requested group and the defaults are skipped or absent. *)
Theorem load_group_none_iff st g d (sd : bool) s :
  (load_group st g d sd s).2 = Return None ↔
  (∀ ep, ep ∈ st → PyStr.endswith (EntryPoint.group ep) g = false)
  ∧ (sd = true ∨ d = None).
Proof.
  rewrite load_group_unfold, <-effective_entries_nil. simpl.
  destruct (effective_entries st g) as [|x l].
  - destruct sd; [naive_solver|]. destruct d; simpl; naive_solver.
  - naive_solver.
Qed.

(** X5. With a non-empty effective entry set, the keys of the result are
    the effective names of the entries together with, unless the
    defaults are skipped or absent, the keys of the default dict. *)
Theorem load_group_keys st g d (sd : bool) s :
  effective_entries st g ≠ [] →
  ∃ m,
    load_group st g d sd s = (s, Return (Some m))
    ∧ dom m = (if sd then ∅ else match d with Some dm => dom dm | None => ∅ end)
              ∪ list_to_set (effective_name g <$> effective_entries st g).
Proof.
  intros Hne. exists (store_all g (seed d sd) (effective_entries st g)). split.
  - rewrite load_group_unfold. by destruct (effective_entries st g).
  - by rewrite store_all_dom, seed_dom.
Qed.

(** X6. When several effective entries have the same effective name,
    the one that comes last in store order is the one the key maps to. *)
Theorem later_entry_wins st g d (sd : bool) s l1 ep l2 :
  effective_entries st g = (l1 ++ ep :: l2)%list →
  (∀ x, x ∈ l2 → effective_name g x ≠ effective_name g ep) →
  ∃ m,
    load_group st g d sd s = (s, Return (Some m))
    ∧ m !! effective_name g ep = Some (_defer_load_ep ep).
Proof.
  intros Heff Hlater.
  exists (store_all g (seed d sd) (effective_entries st g)). split.
  - rewrite load_group_unfold, Heff. by destruct l1.
  - rewrite store_all_lookup, Heff. unfold winner.
    rewrite filter_app, filter_cons, decide_True by done.
    rewrite (filter_none _ l2) by done.
    by rewrite last_snoc.
Qed.

(** X7. For a namespaced entry whose group is a prefix [p] followed by
    the non-empty requested group, and in which the requested group
    occurs at the end only, the key is [p] followed by the entry's
    name. *)
Theorem namespaced_key_is_prefix_plus_name st g d (sd : bool) s ep p :
  select st g = [] →
  ep ∈ st →
  g ≠ EmptyString →
  EntryPoint.group ep = p +:+ g →
  (∀ i, (i < String.length p)%nat →
        PyStr.startswith (PyStr.drop i (p +:+ g)) g = false) →
  effective_name g ep = p +:+ EntryPoint.name ep
  ∧ ∃ m ep',
      load_group st g d sd s = (s, Return (Some m))
      ∧ m !! (p +:+ EntryPoint.name ep) = Some (_defer_load_ep ep')
      ∧ ep' ∈ st ∧ effective_name g ep' = p +:+ EntryPoint.name ep.
Proof.
  intros Hsel Hin Hg Hgrp Honce.
  assert (effective_name g ep = p +:+ EntryPoint.name ep) as Hname.
  { unfold effective_name. by rewrite Hgrp, replace_trailing. }
  split; [done|].
  assert (effective_entries st g = filter (suffixed g) st) as Heff.
  { rewrite effective_entries_spec, <-select_exact. by rewrite Hsel. }
  assert (ep ∈ filter (suffixed g) st) as Hep.
  { apply list_elem_of_filter. split; [|done]. split.
    - intros Heq. assert (ep ∈ select st g) as H by by apply list_elem_of_filter.
      rewrite Hsel in H. by apply elem_of_nil in H.
    - apply endswith_spec. by exists p. }
  destruct (winner_exists g _ _ Hep) as [ep' Hw].
  destruct (winner_elem _ _ _ _ Hw) as [[_ Hin']%list_elem_of_filter Hkey].
  exists (store_all g (seed d sd) (filter (suffixed g) st)), ep'.
  split; [|split; [|split]].
  - rewrite load_group_unfold, Heff.
    destruct (filter (suffixed g) st); [|done]. by apply elem_of_nil in Hep.
  - by rewrite <-Hname, store_all_lookup, Hw.
  - done.
  - by rewrite Hkey.
Qed.

(** ** [load] and [load_group] together *)

(** X8. For a bare-module entry that is the only one of its name in its
    group, calling the closure stored under that name by [load_group],
    on any arguments, does what [load] of the group and name does. *)
Theorem module_handle_agrees_with_load st g n d (sd : bool) (default : option Val)
    s ep :
  filter (λ x, EntryPoint.group x = g ∧ EntryPoint.name x = n) st = [ep] →
  attr ep = None →
  ∃ m h,
    load_group st g d sd s = (s, Return (Some m))
    ∧ m !! n = Some h
    ∧ ∀ args kwargs s', invoke h args kwargs s' = load st g n default s'.
Proof.
  intros Honly Hattr.
  assert (ep ∈ filter (exact g) st) as Hex.
  { assert (ep ∈ filter (λ x, EntryPoint.group x = g ∧ EntryPoint.name x = n) st)
      as H by (rewrite Honly; left).
    apply list_elem_of_filter in H as [[? _] ?]. by apply list_elem_of_filter. }
  assert (effective_entries st g = filter (exact g) st) as Heff.
  { rewrite effective_entries_spec.
    destruct (filter (exact g) st); [by apply elem_of_nil in Hex|done]. }
  exists (store_all g (seed d sd) (filter (exact g) st)), (_defer_load_ep ep).
  split; [|split].
  - rewrite load_group_unfold, Heff.
    destruct (filter (exact g) st); [by apply elem_of_nil in Hex|done].
  - rewrite store_all_lookup. unfold winner. by rewrite filter_key_exact, Honly.
  - intros args kwargs s'. rewrite (load_of_found _ _ _ _ _ _ _ Honly).
    simpl. unfold run. by rewrite Hattr.
Qed.

(** X9. When the effective names of the effective entries are pairwise
    distinct, the order of the store does not matter: every
    rearrangement of the store gives the same result. *)
Theorem load_group_order_irrelevant st st' g d (sd : bool) s :
  st ≡ₚ st' →
  NoDup (effective_name g <$> effective_entries st g) →
  load_group st' g d sd s = load_group st g d sd s.
Proof.
  intros Hperm Hnd.
  assert (filter (exact g) st ≡ₚ filter (exact g) st') as Hex by by rewrite Hperm.
  assert (filter (suffixed g) st ≡ₚ filter (suffixed g) st') as Hsuf by by rewrite Hperm.
  assert (effective_entries st g ≡ₚ effective_entries st' g) as Heff.
  { rewrite !effective_entries_spec.
    destruct (filter (exact g) st) as [|x l] eqn:Hl.
    - by apply Permutation_nil_l in Hex as <-.
    - destruct (filter (exact g) st') as [|x' l'].
      + symmetry in Hex. by apply Permutation_nil_l in Hex.
      + done. }
  rewrite !load_group_unfold.
  destruct (effective_entries st g) as [|x l] eqn:Hl.
  - by apply Permutation_nil_l in Heff as <-.
  - destruct (effective_entries st' g) as [|x' l'] eqn:Hl'.
    + symmetry in Heff. by apply Permutation_nil_l in Heff.
    + do 3 f_equal. apply map_eq. intros k.
      rewrite !store_all_lookup. by rewrite (winner_perm g k _ _ Heff Hnd).
Qed.

End MoreFacts.


(** ** The further properties on the concrete host *)

Lemma load_found_loads_first_witness :
  filter (λ x, EntryPoint.group x = "foo" ∧ EntryPoint.name x = "bar") Toy.dup_store
  = [Toy.bar; Toy.bar2]
  ∧ Toy.load Toy.dup_store "foo" "bar" (Some "fallback") Toy.s0
    = (mkState 1 [Loaded Toy.bar], Return "pkg.mod:fn").
Proof.
  assert (filter (λ x, EntryPoint.group x = "foo" ∧ EntryPoint.name x = "bar")
                 Toy.dup_store = [Toy.bar; Toy.bar2]) as H by reflexivity.
  split; [exact H|].
  exact (load_found_loads_first Toy.ep_load Toy.dup_store "foo" "bar"
           (Some "fallback") Toy.s0 Toy.bar [Toy.bar2] H).
Defined.

Lemma handle_load_failure_skips_call_witness :
  Toy.attr Toy.bar = Some "fn"
  ∧ Toy.failing_load Toy.bar (world Toy.s0) = (0, inl "ImportError")
  ∧ invoke Toy.py_call (_defer_load_ep Toy.attr Toy.failing_load Toy.py_call Toy.bar)
      ["1"] [("k", "2")] Toy.s0
    = (mkState 0 [Loaded Toy.bar], Raise (HostError "ImportError")).
Proof.
  assert (Toy.attr Toy.bar = Some "fn") as H1 by reflexivity.
  assert (Toy.failing_load Toy.bar (world Toy.s0) = (0, inl "ImportError")) as H2
    by reflexivity.
  split; [exact H1|]. split; [exact H2|].
  exact (handle_load_failure_skips_call Toy.attr Toy.failing_load Toy.py_call
           Toy.bar "fn" ["1"] [("k", "2")] Toy.s0 0 "ImportError" H1 H2).
Defined.

Lemma load_group_none_iff_witness :
  ((∀ ep, ep ∈ Toy.foo_store → PyStr.endswith (EntryPoint.group ep) "food" = false)
   ∧ (true = true ∨ Some ({[ "x" := "f" ]} : gmap string Toy.Val) = None))
  ∧ (Toy.load_group Toy.foo_store "food" (Some {[ "x" := "f" ]}) true Toy.s0).2
    = Return None.
Proof.
  assert ((∀ ep, ep ∈ Toy.foo_store → PyStr.endswith (EntryPoint.group ep) "food" = false)
          ∧ (true = true ∨ Some ({[ "x" := "f" ]} : gmap string Toy.Val) = None)) as H.
  { split; [|left; reflexivity]. intros ep Hep. unfold Toy.foo_store in Hep.
    apply elem_of_cons in Hep as [->|Hep];
      [|apply list_elem_of_singleton in Hep as ->]; reflexivity. }
  split; [exact H|].
  exact (proj2 (load_group_none_iff Toy.attr Toy.ep_load Toy.py_call
                  Toy.foo_store "food" (Some {[ "x" := "f" ]}) true Toy.s0) H).
Defined.

Lemma load_group_keys_witness :
  effective_entries Toy.foo_store "foo" ≠ []
  ∧ ∃ m,
      Toy.load_group Toy.foo_store "foo" (Some {[ "x" := "f" ]}) false Toy.s0
      = (Toy.s0, Return (Some m))
      ∧ dom m = {[ "x" ]} ∪ list_to_set ["bar"; "baz"].
Proof.
  assert (effective_entries Toy.foo_store "foo" ≠ []) as H by (intros [=]).
  split; [exact H|].
  destruct (load_group_keys Toy.attr Toy.ep_load Toy.py_call
              Toy.foo_store "foo" (Some {[ "x" := "f" ]}) false Toy.s0 H)
    as (m & Hm & Hdom).
  exists m. split; [exact Hm|]. rewrite Hdom, dom_singleton_L. reflexivity.
Defined.

Lemma later_entry_wins_witness :
  effective_entries Toy.dup_store "foo" = ([Toy.bar] ++ Toy.bar2 :: [])%list
  ∧ (∀ x, x ∈ [] → effective_name "foo" x ≠ effective_name "foo" Toy.bar2)
  ∧ ∃ m,
      Toy.load_group Toy.dup_store "foo" None false Toy.s0 = (Toy.s0, Return (Some m))
      ∧ m !! "bar" = Some (Toy.handle Toy.bar2).
Proof.
  assert (effective_entries Toy.dup_store "foo" = ([Toy.bar] ++ Toy.bar2 :: [])%list)
    as H1 by reflexivity.
  assert (∀ x, x ∈ [] → effective_name "foo" x ≠ effective_name "foo" Toy.bar2) as H2.
  { intros x Hx. apply elem_of_nil in Hx. destruct Hx. }
  split; [exact H1|]. split; [exact H2|].
  exact (later_entry_wins Toy.attr Toy.ep_load Toy.py_call
           Toy.dup_store "foo" None false Toy.s0 [Toy.bar] Toy.bar2 [] H1 H2).
Defined.

Lemma namespaced_key_is_prefix_plus_name_witness :
  select Toy.ns_store "foo" = []
  ∧ Toy.ns_bar ∈ Toy.ns_store
  ∧ "foo" ≠ EmptyString
  ∧ EntryPoint.group Toy.ns_bar = "ns." +:+ "foo"
  ∧ (∀ i, (i < String.length "ns.")%nat →
          PyStr.startswith (PyStr.drop i ("ns." +:+ "foo")) "foo" = false)
  ∧ effective_name "foo" Toy.ns_bar = "ns.bar"
  ∧ ∃ m ep',
      Toy.load_group Toy.ns_store "foo" None false Toy.s0 = (Toy.s0, Return (Some m))
      ∧ m !! "ns.bar" = Some (Toy.handle ep').
Proof.
  assert (select Toy.ns_store "foo" = []) as H1 by reflexivity.
  assert (Toy.ns_bar ∈ Toy.ns_store) as H2 by left.
  assert ("foo" ≠ EmptyString) as H3 by (intros [=]).
  assert (EntryPoint.group Toy.ns_bar = "ns." +:+ "foo") as H4 by reflexivity.
  assert (∀ i, (i < String.length "ns.")%nat →
            PyStr.startswith (PyStr.drop i ("ns." +:+ "foo")) "foo" = false) as H5.
  { intros i Hi. simpl in Hi. destruct i as [|[|[|i]]]; [reflexivity..|lia]. }
  split; [exact H1|]. split; [exact H2|]. split; [exact H3|].
  split; [exact H4|]. split; [exact H5|].
  destruct (namespaced_key_is_prefix_plus_name Toy.attr Toy.ep_load Toy.py_call
              Toy.ns_store "foo" None false Toy.s0 Toy.ns_bar "ns." H1 H2 H3 H4 H5)
    as (Hname & m & ep' & Hm & Hk & _).
  split; [exact Hname|]. exists m, ep'. split; [exact Hm|exact Hk].
Defined.

Lemma module_handle_agrees_with_load_witness :
  filter (λ x, EntryPoint.group x = "foo" ∧ EntryPoint.name x = "baz") Toy.foo_store
  = [Toy.baz]
  ∧ Toy.attr Toy.baz = None
  ∧ ∃ m h,
      Toy.load_group Toy.foo_store "foo" None false Toy.s0 = (Toy.s0, Return (Some m))
      ∧ m !! "baz" = Some h
      ∧ Toy.call h ["1"] [] Toy.s0 = Toy.load Toy.foo_store "foo" "baz" None Toy.s0.
Proof.
  assert (filter (λ x, EntryPoint.group x = "foo" ∧ EntryPoint.name x = "baz")
                 Toy.foo_store = [Toy.baz]) as H1 by reflexivity.
  assert (Toy.attr Toy.baz = None) as H2 by reflexivity.
  split; [exact H1|]. split; [exact H2|].
  destruct (module_handle_agrees_with_load Toy.attr Toy.ep_load Toy.py_call
              Toy.foo_store "foo" "baz" None false None Toy.s0 Toy.baz H1 H2)
    as (m & h & Hm & Hk & Hcall).
  exists m, h. split; [exact Hm|]. split; [exact Hk|]. exact (Hcall ["1"] [] Toy.s0).
Defined.

Lemma load_group_order_irrelevant_witness :
  [Toy.bar; Toy.baz] ≡ₚ [Toy.baz; Toy.bar]
  ∧ NoDup (effective_name "foo" <$> effective_entries [Toy.bar; Toy.baz] "foo")
  ∧ Toy.load_group [Toy.baz; Toy.bar] "foo" None false Toy.s0
    = Toy.load_group [Toy.bar; Toy.baz] "foo" None false Toy.s0.
Proof.
  assert ([Toy.bar; Toy.baz] ≡ₚ [Toy.baz; Toy.bar]) as H1 by apply perm_swap.
  assert (NoDup (effective_name "foo" <$> effective_entries [Toy.bar; Toy.baz] "foo"))
    as H2.
  { change (NoDup ["bar"; "baz"]). apply NoDup_cons. split.
    - intros H. apply list_elem_of_singleton in H. discriminate H.
    - apply NoDup_singleton. }
  split; [exact H1|]. split; [exact H2|].
  exact (load_group_order_irrelevant Toy.attr Toy.ep_load Toy.py_call
           [Toy.bar; Toy.baz] [Toy.baz; Toy.bar] "foo" None false Toy.s0 H1 H2).
Defined.
